(** * reader_generator.py: the Pandoc reader generator

    A shallow embedding of [pandoc/lib/reader_generator.py] and the proofs of
    its specification.  The script holds a list of Pandoc format names and a
    Lua template, and for each name writes
    [template.replace('<format>', name)] to [../readers/<name>.lua].

    Modelling choices:
    - a Python [str] is a list of Unicode code points ([N]);
    - [str.replace] is the left-to-right scan over non-overlapping
      occurrences that CPython performs;
    - [pathlib.Path] normalises its argument as [PurePosixPath] does;
    - the file system is a finite map from path strings to byte contents,
      and an environment says which writes fail and how;
    - [Path.write_text] opens the file for writing (which truncates it),
      encodes the text and writes the bytes; it is given both as a function
      (the call as a whole) and as a step relation (what an observer of the
      file system can see while the call runs);
    - the system is a POSIX one, as the path [../readers/] suggests: the
      separator is [/] and a line break is written as it is. *)

From Stdlib Require Import NArith ZArith Ascii String Lia.
From stdpp Require Import base relations list gmap.

Local Open Scope list_scope.

(** ** Python strings *)

Definition codepoint := N.
Definition str := list codepoint.

(** A literal of the source, character by character. *)
Definition lit (s : string) : str :=
  map N_of_ascii (list_ascii_of_string s).

(** ** str.replace, str.count and str.split on a non-overlapping scan *)

Section Scan.
Context {A : Type} `{EqDecision A}.

(** [s.startswith(old)] *)
Fixpoint starts_with (old s : list A) : bool :=
  match old, s with
  | [], _ => true
  | _ :: _, [] => false
  | a :: old', b :: s' => if decide (a = b) then starts_with old' s' else false
  end.

Variable old : list A.

(** The scan of [s.replace(old, new)] for a non-empty [old]: at an
    occurrence of [old] emit [new] and jump over the occurrence ([skip]
    counts the characters of it still to pass), elsewhere copy one
    character. *)
Fixpoint replace_from (new : list A) (skip : nat) (s : list A) : list A :=
  match s with
  | [] => []
  | c :: s' =>
      match skip with
      | S k => replace_from new k s'
      | O =>
          if starts_with old s
          then new ++ replace_from new (length old - 1) s'
          else c :: replace_from new 0 s'
      end
  end.

(** [s.replace(old, new)]; with an empty [old], Python inserts [new]
    before every character and at the end. *)
Definition replace (new s : list A) : list A :=
  match old with
  | [] => new ++ flat_map (fun c => c :: new) s
  | _ :: _ => replace_from new 0 s
  end.

(** [s.count(old)]: the occurrences the scan of [replace] meets. *)
Fixpoint count_from (skip : nat) (s : list A) : nat :=
  match s with
  | [] => 0
  | _ :: s' =>
      match skip with
      | S k => count_from k s'
      | O =>
          if starts_with old s
          then S (count_from (length old - 1) s')
          else count_from 0 s'
      end
  end.

Definition count (s : list A) : nat :=
  match old with
  | [] => S (length s)
  | _ :: _ => count_from 0 s
  end.

(** Every position of [s] at which [old] starts, overlapping or not. *)
Fixpoint occurrences (s : list A) : nat :=
  match s with
  | [] => 0
  | _ :: s' => (if starts_with old s then 1 else 0) + occurrences s'
  end.

(** [s.split(old)] for a non-empty [old]: the pieces of [s] between the
    occurrences met by the scan; [cur] is the piece being read, reversed. *)
Fixpoint split_from (cur : list A) (skip : nat) (s : list A) : list (list A) :=
  match s with
  | [] => [rev cur]
  | c :: s' =>
      match skip with
      | S k => split_from cur k s'
      | O =>
          if starts_with old s
          then rev cur :: split_from [] (length old - 1) s'
          else split_from (c :: cur) 0 s'
      end
  end.

Definition split (s : list A) : list (list A) := split_from [] 0 s.

(** [sep.join(pieces)] *)
Fixpoint join (sep : list A) (pieces : list (list A)) : list A :=
  match pieces with
  | [] => []
  | [p] => p
  | p :: ps => p ++ sep ++ join sep ps
  end.

End Scan.


(** ** The data of the script *)

(** [formats], in the order of the source. *)
Definition formats : list str :=
  [ lit "commonmark"; lit "commonmark_x"; lit "gfm";
    lit "markdown"; lit "markdown_mmd"; lit "markdown_phpextra";
    lit "markdown_strict";
    lit "latex";
    lit "org";
    lit "rst";
    lit "textile" ].

(** [template]: the triple-quoted literal; the backslash after the opening
    quotes removes the first line break, the last line ends with one. *)
Definition template : str := lit
"-- Copyright (c) 2023, Geoffrey M. Poore
-- All rights reserved.
--
-- Licensed under the BSD 3-Clause License:
-- http://opensource.org/licenses/BSD-3-Clause
--

local format = '<format>'
local readerlib = dofile(pandoc.path.join{pandoc.path.directory(PANDOC_SCRIPT_FILE), '../lib/readerlib.lua'})

Extensions = readerlib.getExtensions(format)

function Reader(sources, opts)
    return readerlib.read(sources, format, opts)
end
".

(** The first argument of [template.replace]. *)
Definition placeholder : str := lit "<format>".

(** [template.replace('<format>', format)], for any template. *)
Definition render (tpl format : str) : str := replace placeholder format tpl.

(** ** pathlib.Path on a POSIX system *)

Definition slash : codepoint := 47%N.
Definition dot : codepoint := 46%N.

(** [posixpath.splitroot]: the root is [/], or [//] for exactly two leading
    slashes, or empty. *)
Definition splitroot (p : str) : str * str :=
  match p with
  | 47%N :: 47%N :: 47%N :: _ => ([slash], tail p)
  | 47%N :: 47%N :: rel => ([slash; slash], rel)
  | 47%N :: rel => ([slash], rel)
  | _ => ([], p)
  end.

Record Path := { root : str; parts : list str }.

(** [pathlib.Path(p)]: the components between slashes, without the empty
    ones and without [.]; [..] is kept. *)
Definition mkPath (p : str) : Path :=
  let '(r, rel) := splitroot p in
  {| root := r;
     parts := filter (fun x => x <> [] /\ x <> [dot]) (split [slash] rel) |}.

(** [str(path)] *)
Definition path_str (p : Path) : str :=
  match root p ++ join [slash] (parts p) with
  | [] => [dot]
  | s => s
  end.

(** [pathlib.Path(f'../readers/{format}.lua')], as the string handed to the
    operating system. *)
Definition file_path_of (format : str) : str :=
  path_str (mkPath (lit "../readers/" ++ format ++ lit ".lua")).

(** ** Text encoding *)

Definition byte := N.

(** The UTF-8 encoding of one code point; surrogates cannot be encoded
    ([UnicodeEncodeError]). *)
Definition utf8_char (c : codepoint) : option (list byte) :=
  if (c <? 0x80)%N then Some [c]
  else if (c <? 0x800)%N then
    Some [N.lor 0xC0 (N.shiftr c 6); N.lor 0x80 (N.land c 0x3F)]
  else if (c <? 0x10000)%N then
    if ((0xD800 <=? c) && (c <=? 0xDFFF))%N then None
    else Some [N.lor 0xE0 (N.shiftr c 12);
               N.lor 0x80 (N.land (N.shiftr c 6) 0x3F);
               N.lor 0x80 (N.land c 0x3F)]
  else if (c <? 0x110000)%N then
    Some [N.lor 0xF0 (N.shiftr c 18);
          N.lor 0x80 (N.land (N.shiftr c 12) 0x3F);
          N.lor 0x80 (N.land (N.shiftr c 6) 0x3F);
          N.lor 0x80 (N.land c 0x3F)]
  else None.

(** [s.encode('utf8')] *)
Fixpoint utf8_encode (s : str) : option (list byte) :=
  match s with
  | [] => Some []
  | c :: s' =>
      match utf8_char c, utf8_encode s' with
      | Some bs, Some rest => Some (bs ++ rest)
      | _, _ => None
      end
  end.

(** [os.linesep] on a POSIX system, and the translation of line breaks a
    text file opened with the default [newline=None] applies on writing. *)
Definition linesep : str := [10%N].

Definition translate_newlines (s : str) : str :=
  flat_map (fun c => if (c =? 10)%N then linesep else [c]) s.

(** The bytes [write_text(data, encoding='utf8')] sends to the file. *)
Definition encode_text (data : str) : option (list byte) :=
  utf8_encode (translate_newlines data).

(** ** The file system and its failures *)

(** How the operating system may refuse a write to a path: [open] fails
    (missing directory, no permission), or the device takes only [room]
    bytes of the file. *)
Inductive fault :=
| OpenFails
| DiskFull (room : nat).

Definition env := str -> option fault.

Inductive exn :=
| OSError (path : str)
| UnicodeEncodeError.

Abbreviation disk := (gmap str (list byte)).

(** What one [write_text] does to its file and how it ends: [open] creates
    or truncates the file unless it fails; the text is encoded; the bytes are
    written as far as the device takes them. *)
Definition attempt (E : env) (p : str) (data : str)
  : option (list byte) * option exn :=
  match E p with
  | Some OpenFails => (None, Some (OSError p))
  | Some (DiskFull room) =>
      match encode_text data with
      | None => (Some [], Some UnicodeEncodeError)
      | Some bytes =>
          if length bytes <=? room then (Some bytes, None)
          else (Some (take room bytes), Some (OSError p))
      end
  | None =>
      match encode_text data with
      | None => (Some [], Some UnicodeEncodeError)
      | Some bytes => (Some bytes, None)
      end
  end.

(** [pathlib.Path.write_text] on a file system: the file at [p] gets the
    content of the attempt, no other file changes. *)
Definition write_text (E : env) (p : str) (data : str) (d : disk)
  : disk * option exn :=
  match attempt E p data with
  | (Some content, r) => (<[p := content]> d, r)
  | (None, r) => (d, r)
  end.

(** ** The module-level loop *)

(** The global names the loop reads and binds, and the file system. *)
Record state := {
  g_template : str;
  g_format : option str;
  g_file_path : option str;
  files : disk
}.

(** One iteration: bind [format], bind [file_path], write the rendering of
    the global [template]. *)
Definition iteration (E : env) (format : str) (st : state)
  : state * option exn :=
  let file_path := file_path_of format in
  let '(d, r) :=
    write_text E file_path (render (g_template st) format) (files st) in
  ({| g_template := g_template st;
      g_format := Some format;
      g_file_path := Some file_path;
      files := d |}, r).

(** [for format in fmts: ...]; an exception leaves the loop. *)
Fixpoint for_each (E : env) (fmts : list str) (st : state)
  : state * option exn :=
  match fmts with
  | [] => (st, None)
  | format :: rest =>
      match iteration E format st with
      | (st', Some e) => (st', Some e)
      | (st', None) => for_each E rest st'
      end
  end.

(** The state after the assignments to [formats] and [template]. *)
Definition initial (tpl : str) (d : disk) : state :=
  {| g_template := tpl; g_format := None; g_file_path := None; files := d |}.

(** The script with a given registry and template, and the script itself. *)
Definition generate (fmts : list str) (tpl : str) (E : env) (d : disk)
  : state * option exn :=
  for_each E fmts (initial tpl d).

Definition main (E : env) (d : disk) : state * option exn :=
  generate formats template E d.

(** What the process shows of a run: the exit status, and on the standard
    error stream the traceback of the uncaught exception.  The script
    prints nothing else. *)
Definition exit_status (r : state * option exn) : Z :=
  match snd r with
  | None => 0
  | Some _ => 1
  end.

Definition report (r : state * option exn) : list exn :=
  match snd r with
  | None => []
  | Some e => [e]
  end.

(** An environment without failures, and one in which opening the single
    path [p0] is refused. *)
Definition healthy : env := fun _ => None.

Definition deny (p0 : str) : env :=
  fun p => if decide (p = p0) then Some OpenFails else None.

(** ** write_text as seen from outside

    The same call, one system call at a time: [open] creates or truncates
    the file, each [write] appends a non-empty chunk of the pending bytes
    (the buffer may be flushed in one piece or in several), [close] ends the
    call.  The file system of every intermediate state is what another
    process reading the file at that moment finds. *)

Inductive phase :=
| Unopened
| Opened (pending : list byte)
| Closed
| Failed (e : exn).

Definition room_for (E : env) (p : str) (n : nat) : Prop :=
  match E p with
  | Some (DiskFull room) => n <= room
  | _ => True
  end.

Inductive wstep (E : env) (p : str) (data : str)
  : disk * phase -> disk * phase -> Prop :=
| step_open_fails d :
    E p = Some OpenFails ->
    wstep E p data (d, Unopened) (d, Failed (OSError p))
| step_open d bytes :
    E p <> Some OpenFails ->
    encode_text data = Some bytes ->
    wstep E p data (d, Unopened) (<[p := []]> d, Opened bytes)
| step_open_encode_fails d :
    E p <> Some OpenFails ->
    encode_text data = None ->
    wstep E p data (d, Unopened) (<[p := []]> d, Failed UnicodeEncodeError)
| step_write d cur chunk rest :
    chunk <> [] ->
    d !! p = Some cur ->
    room_for E p (length cur + length chunk) ->
    wstep E p data (d, Opened (chunk ++ rest)) (<[p := cur ++ chunk]> d, Opened rest)
| step_disk_full d cur pending :
    pending <> [] ->
    d !! p = Some cur ->
    E p = Some (DiskFull (length cur)) ->
    wstep E p data (d, Opened pending) (d, Failed (OSError p))
| step_close d :
    wstep E p data (d, Opened []) (d, Closed).

(** The states a reader can meet while [write_text] runs on [d]. *)
Definition observable (E : env) (p : str) (data : str) (d : disk)
  (s : disk * phase) : Prop :=
  rtc (wstep E p data) (d, Unopened) s.


(** ** Notions used in the statements *)

(** The exception the write for [format] ends with, if any. *)
Definition fails (E : env) (tpl format : str) : option exn :=
  snd (attempt E (file_path_of format) (render tpl format)).

(** The first exception met along the registry. *)
Fixpoint first_failure (E : env) (tpl : str) (fmts : list str) : option exn :=
  match fmts with
  | [] => None
  | format :: rest =>
      match fails E tpl format with
      | Some e => Some e
      | None => first_failure E tpl rest
      end
  end.

Definition with_files (st : state) (d : disk) : state :=
  {| g_template := g_template st;
     g_format := g_format st;
     g_file_path := g_file_path st;
     files := d |}.

(** The template around its placeholder. *)
Definition template_head : str := take 179 template.
Definition template_tail : str := drop 187 template.

(** Characters that [str.isspace] accepts, and the path separators. *)
Definition is_space (c : codepoint) : bool :=
  ((9 <=? c) && (c <=? 13) || (28 <=? c) && (c <=? 32) || (c =? 133)
   || (c =? 160) || (c =? 5760) || (8192 <=? c) && (c <=? 8202)
   || (c =? 8232) || (c =? 8233) || (c =? 8239) || (c =? 8287)
   || (c =? 12288))%N.

Definition is_separator (c : codepoint) : bool :=
  ((c =? 47) || (c =? 92))%N.

Definition filename_safe (f : str) : Prop :=
  f <> [] /\ forallb (fun c => negb (is_space c) && negb (is_separator c)) f = true.

(** Failure isolation as the specification words it: whatever fails, every
    identifier whose own write would succeed has its file written. *)
Definition isolates_failures (E : env) (d : disk) : Prop :=
  forall f, f ∈ formats -> fails E template f = None ->
    files (fst (main E d)) !! file_path_of f = encode_text (render template f).

(** Atomic replacement as the specification words it: a reader of the file
    finds the previous state of the file or the complete new content. *)
Definition never_partial (E : env) (p : str) (data : str) (d : disk) : Prop :=
  forall d' ph, observable E p data d (d', ph) ->
    d' !! p = d !! p \/
    exists bytes, encode_text data = Some bytes /\ d' !! p = Some bytes.

(** What holds of every state a reader can meet. *)
Definition write_invariant (E : env) (p : str) (data : str) (d : disk)
  (s : disk * phase) : Prop :=
  match snd s with
  | Unopened => fst s = d
  | Opened pending =>
      exists cur bytes,
        encode_text data = Some bytes /\ bytes = cur ++ pending /\
        fst s = <[p := cur]> d /\ E p <> Some OpenFails /\
        room_for E p (length cur)
  | Closed => write_text E p data d = (fst s, None)
  | Failed e => write_text E p data d = (fst s, Some e)
  end.

(** The phase in which the call leaves. *)
Definition final_phase (r : option exn) : phase :=
  match r with
  | None => Closed
  | Some e => Failed e
  end.

(** The warning the specification asks for when the template has no
    placeholder: the run has something to report. *)
Definition flags_missing_placeholder (tpl : str) (E : env) (d : disk) : Prop :=
  occurrences placeholder tpl = 0 -> report (generate formats tpl E d) <> [].

(** ** Further notions used in the statements *)


Definition is_ascii (s : str) : Prop := Forall (fun c => (c < 0x80)%N) s.

(** The phases in which [write_text] has returned or raised, and what the
    caller gets then. *)
Definition terminal (ph : phase) : Prop :=
  match ph with
  | Closed | Failed _ => True
  | Unopened | Opened _ => False
  end.

Definition raised (ph : phase) : option exn :=
  match ph with
  | Failed e => Some e
  | _ => None
  end.

(** * Properties *)

(** ** The scan *)

Section ScanFacts.
Context {A : Type} `{EqDecision A}.
Implicit Types old new s u : list A.

Lemma starts_with_app old s : starts_with old (old ++ s) = true.
Proof.
  induction old as [|a o IH]; simpl; [reflexivity|].
  rewrite decide_True by reflexivity. exact IH.
Qed.

Lemma starts_with_inv old s :
  starts_with old s = true -> exists rest, s = old ++ rest.
Proof.
  revert s. induction old as [|a o IH]; intros s H0.
  - exists s. reflexivity.
  - destruct s as [|b s]; simpl in H0; [discriminate|].
    destruct (decide (a = b)) as [->|]; [|discriminate].
    destruct (IH _ H0) as [rest ->]. exists rest. reflexivity.
Qed.

Lemma replace_from_skip old new u s :
  replace_from old new (length u) (u ++ s) = replace_from old new 0 s.
Proof. induction u as [|a u IH]; simpl; [reflexivity | exact IH]. Qed.

Lemma count_from_skip old u s :
  count_from old (length u) (u ++ s) = count_from old 0 s.
Proof. induction u as [|a u IH]; simpl; [reflexivity | exact IH]. Qed.

Lemma split_from_skip old cur u s :
  split_from old cur (length u) (u ++ s) = split_from old cur 0 s.
Proof. induction u as [|a u IH]; simpl; [reflexivity | exact IH]. Qed.

(** At an occurrence the scan of a non-empty [a :: o] jumps over it. *)
Lemma starts_with_cons_app a o s :
  starts_with (a :: o) (a :: o ++ s) = true.
Proof. exact (starts_with_app (a :: o) s). Qed.

Lemma pred_length (a : A) (o : list A) : length (a :: o) - 1 = length o.
Proof. simpl. lia. Qed.

Lemma replace_nil old new : old <> [] -> replace old new [] = [].
Proof. destruct old; [congruence | reflexivity]. Qed.

Lemma replace_hit old new s :
  old <> [] -> replace old new (old ++ s) = new ++ replace old new s.
Proof.
  destruct old as [|a o]; [congruence|]. intros _.
  unfold replace. change ((a :: o) ++ s) with (a :: (o ++ s)).
  cbn [replace_from].
  rewrite starts_with_cons_app, pred_length, replace_from_skip.
  reflexivity.
Qed.

Lemma replace_miss old new c s :
  old <> [] -> starts_with old (c :: s) = false ->
  replace old new (c :: s) = c :: replace old new s.
Proof.
  destruct old as [|a o]; [congruence|]. intros _ Hs.
  unfold replace. cbn [replace_from]. rewrite Hs. reflexivity.
Qed.

Lemma count_nil old : old <> [] -> count old [] = 0.
Proof. destruct old; [congruence | reflexivity]. Qed.

Lemma count_hit old s : old <> [] -> count old (old ++ s) = S (count old s).
Proof.
  destruct old as [|a o]; [congruence|]. intros _.
  unfold count. change ((a :: o) ++ s) with (a :: (o ++ s)).
  cbn [count_from].
  rewrite starts_with_cons_app, pred_length, count_from_skip.
  reflexivity.
Qed.

Lemma count_miss old c s :
  old <> [] -> starts_with old (c :: s) = false ->
  count old (c :: s) = count old s.
Proof.
  destruct old as [|a o]; [congruence|]. intros _ Hs.
  unfold count. cbn [count_from]. rewrite Hs. reflexivity.
Qed.

(** Induction along the scan: the empty string, an occurrence followed by
    a scanned rest, a copied character followed by a scanned rest. *)
Lemma scan_ind old (Hne : old <> []) (P : list A -> Prop) :
  P [] ->
  (forall s, P s -> P (old ++ s)) ->
  (forall c s, starts_with old (c :: s) = false -> P s -> P (c :: s)) ->
  forall s, P s.
Proof.
  intros Hnil Hhit Hmiss s.
  remember (length s) as n eqn:Hn.
  revert s Hn. induction n as [n IH] using lt_wf_ind. intros s Hn.
  destruct s as [|c s]; [exact Hnil|].
  destruct (starts_with old (c :: s)) eqn:Hs.
  - destruct (starts_with_inv _ _ Hs) as [rest Hrest].
    rewrite Hrest. apply Hhit.
    apply (IH (length rest)); [|reflexivity].
    subst n. rewrite Hrest, length_app.
    destruct old; [congruence | simpl; lia].
  - apply Hmiss; [exact Hs|].
    apply (IH (length s)); [subst n; simpl; lia | reflexivity].
Qed.

(** The length law of [replace]. *)
Lemma replace_length old new s :
  old <> [] ->
  Z.of_nat (length (replace old new s)) =
  (Z.of_nat (length s) +
   Z.of_nat (count old s) *
   (Z.of_nat (length new) - Z.of_nat (length old)))%Z.
Proof.
  intros Hne. induction s as [|s IH|c s Hs IH] using (scan_ind old Hne).
  - rewrite replace_nil, count_nil by exact Hne. simpl. lia.
  - rewrite replace_hit, count_hit, !length_app by exact Hne. lia.
  - rewrite replace_miss, count_miss by assumption. simpl length. lia.
Qed.

(** Without an occurrence [replace] returns an equal string. *)
Lemma replace_absent old new s :
  old <> [] -> count old s = 0 -> replace old new s = s.
Proof.
  intros Hne.
  induction s as [|s IH|c s Hs IH] using (scan_ind old Hne);
    intros Hc.
  - apply replace_nil, Hne.
  - rewrite count_hit in Hc by exact Hne. discriminate.
  - rewrite count_miss in Hc by assumption.
    rewrite replace_miss by assumption. f_equal. exact (IH Hc).
Qed.

(** *** replace as split then join *)

Lemma split_from_hit old cur s :
  old <> [] ->
  split_from old cur 0 (old ++ s) = rev cur :: split_from old [] 0 s.
Proof.
  destruct old as [|a o]; [congruence|]. intros _.
  change ((a :: o) ++ s) with (a :: (o ++ s)).
  cbn [split_from].
  rewrite starts_with_cons_app, pred_length, split_from_skip.
  reflexivity.
Qed.

Lemma split_from_cur old cur s :
  old <> [] ->
  split_from old cur 0 s =
  match split old s with
  | [] => [rev cur]
  | p :: ps => (rev cur ++ p) :: ps
  end.
Proof.
  intros Hne. unfold split. revert cur.
  induction s as [|s IH|c s Hs IH] using (scan_ind old Hne);
    intros cur.
  - simpl. rewrite app_nil_r. reflexivity.
  - rewrite !split_from_hit by exact Hne. simpl. rewrite app_nil_r.
    reflexivity.
  - cbn [split_from]. rewrite Hs, (IH (c :: cur)), (IH [c]).
    destruct (split_from old [] 0 s) as [|p ps]; simpl;
      rewrite <- ?app_assoc; reflexivity.
Qed.

Lemma split_nonempty old s : split old s <> [].
Proof.
  unfold split. generalize (@nil A) 0.
  induction s as [|c s IH]; intros cur k; simpl; [discriminate|].
  destruct k; [destruct (starts_with old (c :: s))|]; try discriminate;
    apply IH.
Qed.

Lemma split_hit old s : old <> [] -> split old (old ++ s) = [] :: split old s.
Proof. intros Hne. unfold split. apply (split_from_hit old []), Hne. Qed.

Lemma split_miss old c s :
  old <> [] -> starts_with old (c :: s) = false ->
  exists p ps, split old s = p :: ps /\ split old (c :: s) = (c :: p) :: ps.
Proof.
  intros Hne Hs. unfold split at 2. cbn [split_from].
  rewrite Hs, split_from_cur by exact Hne.
  pose proof (split_nonempty old s) as Hsp.
  destruct (split old s) as [|p ps]; [congruence|].
  exists p, ps. split; reflexivity.
Qed.

(** [s.replace(old, new) == new.join(s.split(old))]: the pieces come from
    [s] alone, and [new] is copied between them without being scanned. *)
Lemma replace_join old new s :
  old <> [] -> replace old new s = join new (split old s).
Proof.
  intros Hne. induction s as [|s IH|c s Hs IH] using (scan_ind old Hne).
  - rewrite replace_nil by exact Hne. reflexivity.
  - rewrite replace_hit, split_hit, IH by exact Hne.
    pose proof (split_nonempty old s) as Hsp.
    destruct (split old s) as [|p ps]; [congruence|]. reflexivity.
  - rewrite replace_miss, IH by assumption.
    destruct (split_miss old c s Hne Hs) as (p & ps & -> & ->).
    destruct ps; reflexivity.
Qed.

(** When the scan meets an occurrence, [new] stands in the result. *)
Lemma replace_keeps_new old new s :
  old <> [] -> 0 < count old s ->
  exists pre post, replace old new s = pre ++ new ++ post.
Proof.
  intros Hne.
  induction s as [|s IH|c s Hs IH] using (scan_ind old Hne);
    intros Hc.
  - rewrite count_nil in Hc by exact Hne. lia.
  - exists [], (replace old new s). rewrite replace_hit by exact Hne.
    reflexivity.
  - rewrite count_miss in Hc by assumption.
    destruct (IH Hc) as (pre & post & E).
    exists (c :: pre), post. rewrite replace_miss, E by assumption.
    reflexivity.
Qed.

End ScanFacts.

(** ** The scan on small inputs, as Python answers *)

Example replace_overlap :
  replace (lit "aa") (lit "b") (lit "aaa") = lit "ba" /\
  count (lit "aa") (lit "aaa") = 1 /\
  occurrences (lit "aa") (lit "aaa") = 2.
Proof. repeat split; reflexivity. Qed.

Example replace_every_occurrence :
  replace (lit "<FMT>") (lit "beta") (lit "<FMT> = <FMT>") = lit "beta = beta".
Proof. reflexivity. Qed.

Example replace_empty_old :
  replace (lit "") (lit "-") (lit "ab") = lit "-a-b-".
Proof. reflexivity. Qed.

Example split_pieces :
  split (lit "/") (lit "../readers//x.lua") =
  [lit ".."; lit "readers"; lit ""; lit "x.lua"].
Proof. reflexivity. Qed.

Example path_kept : file_path_of (lit "gfm") = lit "../readers/gfm.lua".
Proof. reflexivity. Qed.

Example path_normalised :
  file_path_of (lit "a/./b//c") = lit "../readers/a/b/c.lua" /\
  path_str (mkPath (lit "")) = lit "." /\
  path_str (mkPath (lit "//a/")) = lit "//a" /\
  path_str (mkPath (lit "///a/..")) = lit "/a/..".
Proof. repeat split; reflexivity. Qed.

Example utf8_samples :
  utf8_encode [0xE9%N] = Some [0xC3%N; 0xA9%N] /\
  utf8_encode [0x20AC%N] = Some [0xE2%N; 0x82%N; 0xAC%N] /\
  utf8_encode [0x1F600%N] = Some [0xF0%N; 0x9F%N; 0x98%N; 0x80%N] /\
  utf8_encode [0xD800%N] = None.
Proof. repeat split; reflexivity. Qed.

Example template_shape :
  length template = 430 /\ count placeholder template = 1 /\
  template_head ++ placeholder ++ template_tail = template.
Proof. repeat split; reflexivity. Qed.

(** ** The placeholder *)

Lemma placeholder_nonempty : placeholder <> [].
Proof. discriminate. Qed.

(** No character of [<format>] after the first is [<], so occurrences cannot
    overlap: the scan meets every one of them. *)
Lemma occurrences_placeholder_hit s :
  occurrences placeholder (placeholder ++ s) = S (occurrences placeholder s).
Proof. reflexivity. Qed.

Lemma count_placeholder s : count placeholder s = occurrences placeholder s.
Proof.
  induction s as [|s IH|c s Hs IH] using (scan_ind placeholder placeholder_nonempty).
  - reflexivity.
  - rewrite count_hit, occurrences_placeholder_hit, IH by discriminate.
    reflexivity.
  - rewrite count_miss by (discriminate || exact Hs).
    cbn [occurrences]. rewrite Hs, IH. reflexivity.
Qed.

Lemma starts_with_app_r {A} `{EqDecision A} (old s post : list A) :
  starts_with old s = true -> starts_with old (s ++ post) = true.
Proof.
  revert s. induction old as [|a o IH]; intros s Hs; [reflexivity|].
  destruct s as [|b s]; simpl in *; [discriminate|].
  destruct (decide (a = b)); [apply IH, Hs | discriminate].
Qed.

Lemma occurrences_app_l {A} `{EqDecision A} (old pre s : list A) :
  occurrences old s <= occurrences old (pre ++ s).
Proof. induction pre as [|c pre IH]; simpl; lia. Qed.

Lemma occurrences_app_r {A} `{EqDecision A} (old s post : list A) :
  occurrences old s <= occurrences old (s ++ post).
Proof.
  induction s as [|c s IH]; [simpl; lia|].
  change ((c :: s) ++ post) with (c :: (s ++ post)). cbn [occurrences].
  destruct (starts_with old (c :: s)) eqn:Hs.
  - apply (starts_with_app_r _ _ post) in Hs.
    change ((c :: s) ++ post) with (c :: (s ++ post)) in Hs. rewrite Hs. lia.
  - destruct (starts_with old (c :: s ++ post)); lia.
Qed.

(** ** Paths *)

Lemma split_slash_piece cur (u : str) :
  slash ∉ u -> split_from [slash] cur 0 u = [rev cur ++ u].
Proof.
  revert cur. induction u as [|c u IH]; intros cur Hu.
  - simpl. rewrite app_nil_r. reflexivity.
  - apply not_elem_of_cons in Hu as [Hc Hu].
    cbn [split_from starts_with]. rewrite decide_False by exact Hc.
    rewrite (IH (c :: cur) Hu). simpl. rewrite <- app_assoc. reflexivity.
Qed.

Lemma split_slash_sep cur (u s : str) :
  slash ∉ u ->
  split_from [slash] cur 0 (u ++ slash :: s) =
  (rev cur ++ u) :: split_from [slash] [] 0 s.
Proof.
  revert cur. induction u as [|c u IH]; intros cur Hu.
  - cbn [app split_from starts_with]. rewrite decide_True by reflexivity.
    rewrite app_nil_r. reflexivity.
  - apply not_elem_of_cons in Hu as [Hc Hu].
    change ((c :: u) ++ slash :: s) with (c :: (u ++ slash :: s)).
    cbn [split_from starts_with]. rewrite decide_False by exact Hc.
    rewrite (IH (c :: cur) Hu). simpl. rewrite <- app_assoc. reflexivity.
Qed.

(** For an identifier without a slash, [Path] keeps the string as it is. *)
Lemma file_path_plain (f : str) :
  slash ∉ f -> file_path_of f = lit "../readers/" ++ f ++ lit ".lua".
Proof.
  intros Hf. unfold file_path_of, mkPath.
  change (lit "../readers/" ++ f ++ lit ".lua")
    with (lit ".." ++ slash :: (lit "readers" ++ slash :: (f ++ lit ".lua"))).
  change (splitroot (lit ".." ++ slash :: (lit "readers" ++ slash :: (f ++ lit ".lua"))))
    with (@nil codepoint,
          lit ".." ++ slash :: (lit "readers" ++ slash :: (f ++ lit ".lua"))).
  cbv iota beta. unfold split.
  assert (Hlua : slash ∉ f ++ lit ".lua").
  { rewrite elem_of_app. intros [?|Hin]; [tauto|].
    revert Hin. change (slash ∉ lit ".lua"). compute_done. }
  rewrite (split_slash_sep [] (lit "..")) by compute_done.
  rewrite (split_slash_sep [] (lit "readers")) by compute_done.
  rewrite (split_slash_piece [] _ Hlua).
  cbn [rev app]. unfold path_str. cbn [root parts].
  rewrite !filter_cons_True, filter_nil.
  - reflexivity.
  - split; [|intros Heq; apply (f_equal length) in Heq;
             rewrite length_app in Heq; simpl in Heq; lia].
    intros Heq; apply (f_equal length) in Heq;
      rewrite length_app in Heq; simpl in Heq; lia.
  - split; discriminate.
  - split; discriminate.
Qed.

Lemma file_path_inj (f g : str) :
  slash ∉ f -> slash ∉ g -> file_path_of f = file_path_of g -> f = g.
Proof.
  intros Hf Hg. rewrite !file_path_plain by assumption. intros Heq.
  apply app_inv_head, app_inv_tail in Heq. exact Heq.
Qed.

(** ** One write *)

Lemma write_text_outcome E p data d :
  snd (write_text E p data d) = snd (attempt E p data).
Proof.
  unfold write_text. destruct (attempt E p data) as [[c|] r]; reflexivity.
Qed.

Lemma write_text_frame E p data d q :
  q <> p -> fst (write_text E p data d) !! q = d !! q.
Proof.
  intros Hq. unfold write_text.
  destruct (attempt E p data) as [[c|] r]; simpl; [|reflexivity].
  apply lookup_insert_ne. congruence.
Qed.

Lemma attempt_ok E p data :
  snd (attempt E p data) = None ->
  exists bytes, encode_text data = Some bytes /\
                attempt E p data = (Some bytes, None).
Proof.
  unfold attempt.
  destruct (E p) as [[|room]|]; simpl; [discriminate|..];
    destruct (encode_text data) as [bytes|]; simpl; try discriminate.
  - destruct (length bytes <=? room); simpl; [|discriminate].
    intros _. exists bytes. split; reflexivity.
  - intros _. exists bytes. split; reflexivity.
Qed.

Lemma write_text_ok E p data d :
  snd (write_text E p data d) = None ->
  exists bytes, encode_text data = Some bytes /\
                write_text E p data d = (<[p := bytes]> d, None).
Proof.
  rewrite write_text_outcome. intros Hok.
  destruct (attempt_ok _ _ _ Hok) as (bytes & Henc & Hat).
  exists bytes. split; [exact Henc|]. unfold write_text. rewrite Hat.
  reflexivity.
Qed.

(** Writing again over the result of the same write changes nothing. *)
Lemma write_text_replay E p data d d' :
  (forall c, fst (attempt E p data) = Some c -> d' !! p = Some c) ->
  write_text E p data d' = (d', snd (write_text E p data d)).
Proof.
  intros Hc. unfold write_text in *.
  destruct (attempt E p data) as [[c|] r]; simpl in *; [|reflexivity].
  rewrite insert_id by (apply Hc; reflexivity). reflexivity.
Qed.

(** ** The loop *)

Lemma iteration_template E f st : g_template (fst (iteration E f st)) = g_template st.
Proof.
  unfold iteration. destruct (write_text _ _ _ _) as [d r]. reflexivity.
Qed.

Lemma iteration_files E f st :
  files (fst (iteration E f st)) =
  fst (write_text E (file_path_of f) (render (g_template st) f) (files st)).
Proof.
  unfold iteration. destruct (write_text _ _ _ _) as [d r]. reflexivity.
Qed.

Lemma iteration_outcome E f st :
  snd (iteration E f st) = fails E (g_template st) f.
Proof.
  unfold iteration, fails. rewrite <- (write_text_outcome _ _ _ (files st)).
  destruct (write_text _ _ _ _) as [d r]. reflexivity.
Qed.

Lemma for_each_template E fmts st :
  g_template (fst (for_each E fmts st)) = g_template st.
Proof.
  revert st. induction fmts as [|f rest IH]; intros st; [reflexivity|].
  cbn [for_each]. pose proof (iteration_template E f st) as Ht.
  destruct (iteration E f st) as [st1 [e|]]; simpl in *; [exact Ht|].
  rewrite IH. exact Ht.
Qed.

Lemma for_each_outcome E fmts st :
  snd (for_each E fmts st) = first_failure E (g_template st) fmts.
Proof.
  revert st. induction fmts as [|f rest IH]; intros st; [reflexivity|].
  cbn [for_each first_failure].
  pose proof (iteration_template E f st) as Ht.
  pose proof (iteration_outcome E f st) as Ho.
  destruct (iteration E f st) as [st1 [e|]]; simpl in *; rewrite <- Ho.
  - reflexivity.
  - rewrite IH, Ht. reflexivity.
Qed.

(** Files whose path is not the path of an identifier stay as they are. *)
Lemma for_each_frame E fmts st q :
  q ∉ map file_path_of fmts ->
  files (fst (for_each E fmts st)) !! q = files st !! q.
Proof.
  revert st. induction fmts as [|f rest IH]; intros st Hq; [reflexivity|].
  cbn [map] in Hq. apply not_elem_of_cons in Hq as [Hqf Hq].
  cbn [for_each]. pose proof (iteration_files E f st) as Hf.
  destruct (iteration E f st) as [st1 [e|]]; simpl in *.
  - rewrite Hf. apply write_text_frame, Hqf.
  - rewrite (IH st1 Hq), Hf. apply write_text_frame, Hqf.
Qed.

Lemma for_each_app E pre post st :
  for_each E (pre ++ post) st =
  match for_each E pre st with
  | (st', Some e) => (st', Some e)
  | (st', None) => for_each E post st'
  end.
Proof.
  revert st. induction pre as [|f pre IH]; intros st; [reflexivity|].
  cbn [app for_each].
  destruct (iteration E f st) as [st1 [e|]]; [reflexivity | apply IH].
Qed.

(** After a loop that ends without exception, every identifier's file
    holds the encoded rendering. *)
Lemma for_each_written E fmts st :
  NoDup (map file_path_of fmts) ->
  snd (for_each E fmts st) = None ->
  forall f, f ∈ fmts ->
    exists bytes, encode_text (render (g_template st) f) = Some bytes /\
      files (fst (for_each E fmts st)) !! file_path_of f = Some bytes.
Proof.
  revert st. induction fmts as [|g rest IH]; intros st Hnd Hok f Hf.
  - inversion Hf.
  - cbn [map] in Hnd. apply NoDup_cons in Hnd as [Hg Hnd].
    cbn [for_each] in *.
    pose proof (iteration_template E g st) as Ht.
    pose proof (iteration_files E g st) as Hfi.
    pose proof (iteration_outcome E g st) as Ho.
    destruct (iteration E g st) as [st1 [e|]]; simpl in *; [discriminate|].
    apply elem_of_cons in Hf as [->|Hf].
    + rewrite (for_each_frame E rest st1 _ Hg), Hfi.
      assert (Hw0 : snd (write_text E (file_path_of g)
                           (render (g_template st) g) (files st)) = None)
        by (rewrite write_text_outcome; symmetry; exact Ho).
      destruct (write_text_ok _ _ _ _ Hw0) as (bytes & Henc & Hw).
      exists bytes. split; [exact Henc|]. rewrite Hw. simpl.
      apply lookup_insert_eq.
    + rewrite <- Ht. apply IH; assumption.
Qed.

Lemma with_files_id st : with_files st (files st) = st.
Proof. destruct st; reflexivity. Qed.

(** Running the loop over its own result reproduces that result. *)
Lemma for_each_replay E fmts st :
  NoDup (map file_path_of fmts) ->
  for_each E fmts (with_files st (files (fst (for_each E fmts st)))) =
  for_each E fmts st.
Proof.
  revert st. induction fmts as [|g rest IH]; intros st Hnd.
  - simpl. rewrite with_files_id. reflexivity.
  - cbn [map] in Hnd. apply NoDup_cons in Hnd as [Hg Hnd].
    cbn [for_each].
    destruct (iteration E g st) as [st1 r] eqn:Hit.
    pose proof (iteration_files E g st) as Hfi. rewrite Hit in Hfi.
    pose proof (iteration_outcome E g st) as Ho. rewrite Hit in Ho.
    simpl in Hfi, Ho.
    set (final := files (fst (match r with
                              | Some e => (st1, Some e)
                              | None => for_each E rest st1
                              end))).
    assert (Hfinal : final !! file_path_of g = files st1 !! file_path_of g).
    { subst final. destruct r; [reflexivity|].
      apply for_each_frame, Hg. }
    assert (Hst1 : st1 = {| g_template := g_template st;
                            g_format := Some g;
                            g_file_path := Some (file_path_of g);
                            files := files st1 |}).
    { unfold iteration in Hit.
      destruct (write_text _ _ _ _) as [d0 r0]. inversion Hit. reflexivity. }
    assert (Hre : iteration E g (with_files st final) = (with_files st1 final, r)).
    { unfold iteration. cbn [with_files g_template files].
      rewrite (write_text_replay E _ _ (files st) final).
      - rewrite write_text_outcome. fold (fails E (g_template st) g).
        rewrite <- Ho. rewrite Hst1. reflexivity.
      - intros c Hc. rewrite Hfinal, Hfi. unfold write_text.
        destruct (attempt _ _ _) as [[c'|] r']; simpl in *; [|discriminate].
        inversion Hc; subst. apply lookup_insert_eq. }
    rewrite Hre. destruct r as [e|].
    + subst final. simpl. rewrite with_files_id. reflexivity.
    + subst final. simpl. apply (IH st1 Hnd).
Qed.

(** ** The registry and the template *)

Lemma formats_slash_free : Forall (fun f => slash ∉ f) formats.
Proof. compute_done. Qed.

Lemma formats_paths_NoDup : NoDup (map file_path_of formats).
Proof. compute_done. Qed.

Lemma template_around_placeholder :
  template = template_head ++ placeholder ++ template_tail.
Proof. reflexivity. Qed.

(** The renderings of the registry are ASCII texts: their encoding has the
    same numbers, and line breaks stay single. *)
Lemma formats_rendered :
  Forall (fun f => render template f = template_head ++ f ++ template_tail /\
                   encode_text (render template f) =
                   Some (template_head ++ f ++ template_tail) /\
                   utf8_encode (template_head ++ f ++ template_tail) =
                   Some (template_head ++ f ++ template_tail)) formats.
Proof.
  unfold formats. repeat constructor; vm_compute; reflexivity.
Qed.

Lemma slash_free_of_formats f : f ∈ formats -> slash ∉ f.
Proof.
  intros Hf. exact (proj1 (Forall_forall _ _) formats_slash_free f Hf).
Qed.

Lemma main_outcome E d : snd (main E d) = first_failure E template formats.
Proof. unfold main, generate. apply for_each_outcome. Qed.

Lemma healthy_main_ok d : snd (main healthy d) = None.
Proof. rewrite main_outcome. vm_compute. reflexivity. Qed.

(** What a run without exception leaves at the path of an identifier. *)
Lemma written_by_main E d :
  snd (main E d) = None ->
  forall f, f ∈ formats ->
    files (fst (main E d)) !! file_path_of f =
      Some (template_head ++ f ++ template_tail : list byte) /\
    utf8_encode (render template f) = Some (template_head ++ f ++ template_tail).
Proof.
  intros Hok f Hf.
  destruct (proj1 (Forall_forall _ _) formats_rendered f Hf) as (Hr & He & Hu).
  destruct (for_each_written E formats (initial template d)
              formats_paths_NoDup Hok f Hf) as (bytes & Hb & Hfile).
  cbn [initial g_template] in Hb. rewrite He in Hb. inversion Hb; subst bytes.
  split; [exact Hfile|]. rewrite Hr. exact Hu.
Qed.

(** ** Theorems of the specification *)

(** C1: a run in an environment without failures ends without exception;
    and after a run that ends without exception, every identifier of the
    registry has its file at [../readers/<identifier>.lua]; the content is
    the UTF-8 encoding of the template with the identifier in the place of
    the placeholder, and equal to the template everywhere else. *)
Theorem main_writes_every_format (E : env) (d : disk) :
  snd (main healthy d) = None /\
  (snd (main E d) = None ->
   forall f, f ∈ formats ->
     files (fst (main E d)) !! (lit "../readers/" ++ f ++ lit ".lua") =
       Some (template_head ++ f ++ template_tail : list byte) /\
     utf8_encode (render template f) = Some (template_head ++ f ++ template_tail) /\
     render template f = template_head ++ f ++ template_tail /\
     template = template_head ++ placeholder ++ template_tail /\
     occurrences placeholder template = 1).
Proof.
  split; [apply healthy_main_ok|].
  intros Hok f Hf.
  destruct (written_by_main E d Hok f Hf) as [Hfile Hu].
  destruct (proj1 (Forall_forall _ _) formats_rendered f Hf) as (Hr & _).
  rewrite <- (file_path_plain f (slash_free_of_formats f Hf)).
  repeat split; assumption || reflexivity.
Qed.

Lemma main_writes_every_format_witness :
  files (fst (main healthy ∅)) !! lit "../readers/gfm.lua" =
    Some (template_head ++ lit "gfm" ++ template_tail).
Proof.
  refine (proj1 (proj2 (main_writes_every_format healthy ∅) _ (lit "gfm") _)).
  - rewrite main_outcome. vm_compute. reflexivity.
  - compute_done.
Defined.

(** C5: the length of a rendering is the length of the template plus, for
    each occurrence of the placeholder, the length of the identifier minus
    the length of the placeholder. *)
Theorem render_length (tpl f : str) :
  Z.of_nat (length (render tpl f)) =
  (Z.of_nat (length tpl) +
   Z.of_nat (occurrences placeholder tpl) *
   (Z.of_nat (length f) - Z.of_nat (length placeholder)))%Z.
Proof.
  unfold render. rewrite <- count_placeholder.
  apply replace_length, placeholder_nonempty.
Qed.

(** C8: every identifier of the registry is non-empty and made of
    characters that are neither white space nor path separators, no
    identifier occurs twice, and two different identifiers of that kind have
    different paths. *)
Theorem formats_filename_safe :
  Forall filename_safe formats /\
  NoDup formats /\
  forall f g, filename_safe f -> filename_safe g -> f <> g ->
    file_path_of f <> file_path_of g.
Proof.
  split; [|split].
  - unfold formats. repeat constructor; discriminate.
  - compute_done.
  - intros f g [_ Hf] [_ Hg] Hne Heq. apply Hne.
    assert (Hsl : forall h : str,
      forallb (fun c => negb (is_space c) && negb (is_separator c)) h = true ->
      slash ∉ h).
    { intros h Hh Hin. rewrite forallb_forall in Hh.
      apply list_elem_of_In in Hin. specialize (Hh _ Hin).
      vm_compute in Hh. discriminate. }
    apply file_path_inj; auto.
Qed.

Lemma formats_filename_safe_witness :
  file_path_of (lit "markdown") <> file_path_of (lit "markdown_mmd").
Proof.
  refine (proj2 (proj2 formats_filename_safe) (lit "markdown") (lit "markdown_mmd") _ _ _).
  - split; [discriminate | reflexivity].
  - split; [discriminate | reflexivity].
  - discriminate.
Defined.

(** C9: the rendering is the pieces of the template between the
    placeholder occurrences, joined by the identifier; the identifier is
    copied and never scanned, so a placeholder inside it is still in the
    result. *)
Theorem render_single_pass (tpl f : str) :
  render tpl f = join f (split placeholder tpl) /\
  (0 < occurrences placeholder tpl ->
   0 < occurrences placeholder f ->
   0 < occurrences placeholder (render tpl f)).
Proof.
  split.
  - apply replace_join, placeholder_nonempty.
  - intros Ht Hf. rewrite <- count_placeholder in Ht.
    destruct (replace_keeps_new placeholder f tpl placeholder_nonempty Ht)
      as (pre & post & Hr).
    unfold render. rewrite Hr.
    pose proof (occurrences_app_l placeholder pre (f ++ post)).
    pose proof (occurrences_app_r placeholder f post). lia.
Qed.

Lemma render_single_pass_witness :
  0 < occurrences placeholder (render template (lit "x<format>y")).
Proof.
  refine (proj2 (render_single_pass template (lit "x<format>y")) _ _).
  - vm_compute. lia.
  - vm_compute. lia.
Defined.

(** The inserted identifier is not rendered again. *)
Example render_not_recursive :
  render (lit "format = <format>") (lit "a<format>b") = lit "format = a<format>b".
Proof. reflexivity. Qed.

(** C7: an iteration leaves the global template as it is, changes no file
    other than the one at the identifier's path, and when it ends without
    exception that file holds the whole encoded rendering, whatever it held
    before; the template is the same after any number of iterations. *)
Theorem iteration_touches_one_file (E : env) (f : str) (st : state) :
  g_template (fst (iteration E f st)) = g_template st /\
  (forall q, q <> file_path_of f ->
     files (fst (iteration E f st)) !! q = files st !! q) /\
  (snd (iteration E f st) = None ->
     exists bytes, encode_text (render (g_template st) f) = Some bytes /\
       files (fst (iteration E f st)) !! file_path_of f = Some bytes) /\
  (forall fmts, g_template (fst (for_each E fmts st)) = g_template st).
Proof.
  split; [apply iteration_template|]. split; [|split].
  - intros q Hq. rewrite iteration_files. apply write_text_frame, Hq.
  - intros Hok. rewrite iteration_outcome in Hok. unfold fails in Hok.
    rewrite <- (write_text_outcome _ _ _ (files st)) in Hok.
    destruct (write_text_ok _ _ _ _ Hok) as (bytes & Henc & Hw).
    exists bytes. split; [exact Henc|].
    rewrite iteration_files, Hw. apply lookup_insert_eq.
  - intros fmts. apply for_each_template.
Qed.

Lemma iteration_touches_one_file_witness :
  exists bytes,
    encode_text (render template (lit "org")) = Some bytes /\
    files (fst (iteration healthy (lit "org")
                  (initial template {[ file_path_of (lit "org") := [1%N] ]})))
      !! file_path_of (lit "org") = Some bytes.
Proof.
  refine (proj1 (proj2 (proj2 (iteration_touches_one_file healthy (lit "org")
            (initial template {[ file_path_of (lit "org") := [1%N] ]})))) _).
  rewrite iteration_outcome. vm_compute. reflexivity.
Defined.

(** ** Runs that end without exception *)

(** A write that succeeds stores what it stores in a healthy environment. *)
Lemma write_text_ok_healthy E p data d :
  snd (write_text E p data d) = None ->
  write_text E p data d = write_text healthy p data d.
Proof.
  intros Hok. destruct (write_text_ok _ _ _ _ Hok) as (bytes & Henc & ->).
  unfold write_text, attempt, healthy. rewrite Henc. reflexivity.
Qed.

Lemma for_each_ok_healthy E fmts st :
  snd (for_each E fmts st) = None ->
  for_each E fmts st = for_each healthy fmts st.
Proof.
  revert st. induction fmts as [|f rest IH]; intros st Hok; [reflexivity|].
  cbn [for_each] in *.
  assert (Hit : snd (iteration E f st) = None ->
                iteration E f st = iteration healthy f st).
  { intros Hs. unfold iteration in *.
    destruct (write_text E _ _ _) as [d1 r1] eqn:Hw.
    simpl in Hs. subst r1.
    rewrite <- (write_text_ok_healthy E), Hw; [reflexivity|].
    rewrite Hw. reflexivity. }
  destruct (iteration E f st) as [st1 [e|]] eqn:Hi; simpl in *; [discriminate|].
  rewrite <- (Hit eq_refl). apply IH, Hok.
Qed.

Lemma initial_with_files tpl d d' :
  initial tpl d' = with_files (initial tpl d) d'.
Proof. reflexivity. Qed.

Lemma main_replay E d : main E (files (fst (main E d))) = main E d.
Proof.
  unfold main, generate.
  rewrite (initial_with_files template d).
  apply for_each_replay, formats_paths_NoDup.
Qed.

Lemma main_ok_healthy E d : snd (main E d) = None -> main E d = main healthy d.
Proof. apply for_each_ok_healthy. Qed.

(** C6: a second run over the result of a first run gives the result of
    the first run, files and outcome, in the same environment; and when both
    runs end without exception, in any two environments. *)
Theorem main_idempotent (E : env) (d : disk) :
  main E (files (fst (main E d))) = main E d /\
  (forall E', snd (main E d) = None ->
     snd (main E' (files (fst (main E d)))) = None ->
     files (fst (main E' (files (fst (main E d))))) = files (fst (main E d))).
Proof.
  split; [apply main_replay|].
  intros E' Hok Hok'.
  rewrite (main_ok_healthy E' _ Hok').
  rewrite (main_ok_healthy E d Hok).
  rewrite main_replay. reflexivity.
Qed.

Lemma main_idempotent_witness :
  files (fst (main (fun _ => Some (DiskFull 4096))
                (files (fst (main healthy ∅))))) =
  files (fst (main healthy ∅)).
Proof.
  refine (proj2 (main_idempotent healthy ∅) (fun _ => Some (DiskFull 4096)) _ _).
  - rewrite main_outcome. vm_compute. reflexivity.
  - rewrite main_outcome. vm_compute. reflexivity.
Defined.

Lemma render_literal tpl f : render tpl f = replace (lit "<format>") f tpl.
Proof. reflexivity. Qed.

(** C10: the registry has eleven identifiers with eleven different paths,
    and two runs that end without exception, in whatever environment and on
    whatever files, leave the same content at each of these paths: the
    encoding of the template with [<format>] replaced by the identifier, at
    [../readers/<identifier>.lua]. *)
Theorem main_deterministic (E1 E2 : env) (d1 d2 : disk) :
  snd (main E1 d1) = None ->
  snd (main E2 d2) = None ->
  length formats = 11 /\
  NoDup (map file_path_of formats) /\
  forall f, f ∈ formats ->
    file_path_of f = lit "../readers/" ++ f ++ lit ".lua" /\
    files (fst (main E1 d1)) !! file_path_of f =
      utf8_encode (replace (lit "<format>") f template) /\
    files (fst (main E2 d2)) !! file_path_of f =
      files (fst (main E1 d1)) !! file_path_of f /\
    is_Some (files (fst (main E1 d1)) !! file_path_of f).
Proof.
  intros Hok1 Hok2. split; [reflexivity|]. split; [apply formats_paths_NoDup|].
  intros f Hf.
  pose proof (file_path_plain f (slash_free_of_formats f Hf)) as Hp.
  destruct (written_by_main E1 d1 Hok1 f Hf) as [H1 Hu].
  destruct (written_by_main E2 d2 Hok2 f Hf) as [H2 _].
  rewrite <- render_literal, H1, H2, Hu. repeat split.
  - exact Hp.
  - eexists. reflexivity.
Qed.

Lemma main_deterministic_witness :
  files (fst (main (fun _ => Some (DiskFull 4096))
                {[ lit "../readers/gfm.lua" := [1%N; 2%N] ]}))
    !! file_path_of (lit "gfm") =
  files (fst (main healthy ∅)) !! file_path_of (lit "gfm").
Proof.
  refine (proj1 (proj2 (proj2 (proj2 (proj2
    (main_deterministic healthy (fun _ => Some (DiskFull 4096))
       ∅ {[ lit "../readers/gfm.lua" := [1%N; 2%N] ]} _ _))
    (lit "gfm") _)))).
  - rewrite main_outcome. vm_compute. reflexivity.
  - rewrite main_outcome. vm_compute. reflexivity.
  - compute_done.
Defined.

(** ** Runs that meet a failure *)

Lemma first_failure_none E tpl fmts :
  first_failure E tpl fmts = None <-> forall f, f ∈ fmts -> fails E tpl f = None.
Proof.
  induction fmts as [|g rest IH]; simpl.
  - split; [intros _ f Hf; inversion Hf | reflexivity].
  - destruct (fails E tpl g) as [e|] eqn:Hg.
    + split; [discriminate|]. intros Hall.
      specialize (Hall g (list_elem_of_here _ _)). congruence.
    + rewrite IH. split.
      * intros Hall f Hf. apply elem_of_cons in Hf as [->|Hf]; auto.
      * intros Hall f Hf. apply Hall. right. exact Hf.
Qed.

(** The loop ends at the first identifier whose write fails: the state is
    the one that iteration leaves, the identifiers after it are not
    reached. *)
Lemma for_each_stops E pre f post st e :
  first_failure E (g_template st) pre = None ->
  fails E (g_template st) f = Some e ->
  for_each E (pre ++ f :: post) st =
  (fst (iteration E f (fst (for_each E pre st))), Some e).
Proof.
  intros Hpre Hf. rewrite for_each_app.
  pose proof (for_each_outcome E pre st) as Ho. rewrite Hpre in Ho.
  pose proof (for_each_template E pre st) as Ht.
  destruct (for_each E pre st) as [st1 r]; simpl in *. subst r.
  cbn [for_each].
  pose proof (iteration_outcome E f st1) as Hi. rewrite Ht, Hf in Hi.
  destruct (iteration E f st1) as [st2 r2]; simpl in *. subst r2.
  reflexivity.
Qed.

Lemma NoDup_app_cons_paths (pre post : list str) (f : str) :
  NoDup (map file_path_of (pre ++ f :: post)) ->
  NoDup (map file_path_of pre) /\
  (file_path_of f ∉ map file_path_of pre) /\
  (forall g, g ∈ post ->
     (file_path_of g ∉ map file_path_of pre) /\
     file_path_of g <> file_path_of f).
Proof.
  rewrite map_app. cbn [map]. intros Hnd.
  apply NoDup_app in Hnd as (Hpre & Hdisj & Hrest).
  apply NoDup_cons in Hrest as [Hf _].
  split; [exact Hpre|]. split.
  - intros Hin. apply (Hdisj _ Hin). left.
  - intros g Hg. split.
    + intros Hin. apply (Hdisj _ Hin). right.
      apply list_elem_of_fmap. exists g. split; [reflexivity | exact Hg].
    + intros Heq. apply Hf. rewrite <- Heq.
      apply list_elem_of_fmap. exists g. split; [reflexivity | exact Hg].
Qed.

(** The run of the script when the write of [f] is the first to fail. *)
Lemma run_until_failure E d pre f post e :
  formats = pre ++ f :: post ->
  first_failure E template pre = None ->
  fails E template f = Some e ->
  snd (main E d) = Some e /\
  (forall g, g ∈ pre ->
     exists bytes, encode_text (render template g) = Some bytes /\
       files (fst (main E d)) !! file_path_of g = Some bytes) /\
  (forall g, g ∈ post ->
     files (fst (main E d)) !! file_path_of g = d !! file_path_of g).
Proof.
  intros Hsplit Hpre Hf.
  pose proof formats_paths_NoDup as Hnd. rewrite Hsplit in Hnd.
  destruct (NoDup_app_cons_paths _ _ _ Hnd) as (Hndpre & Hfpre & Hpost).
  unfold main, generate. rewrite Hsplit.
  rewrite (for_each_stops E pre f post (initial template d) e Hpre Hf).
  cbn [fst snd]. split; [reflexivity|]. split.
  - intros g Hg. rewrite iteration_files, write_text_frame.
    + apply (for_each_written E pre (initial template d) Hndpre); [|exact Hg].
      rewrite for_each_outcome. exact Hpre.
    + intros Heq. apply Hfpre. rewrite <- Heq.
      apply list_elem_of_fmap. exists g. split; [reflexivity | exact Hg].
  - intros g Hg. destruct (Hpost g Hg) as [Hgpre Hgf].
    rewrite iteration_files, write_text_frame by exact Hgf.
    rewrite for_each_frame by exact Hgpre. reflexivity.
Qed.

(** C2, as the code has it: there is no handler around the write.  When
    the write of an identifier is the first to fail, the identifiers before
    it have their files, the identifiers after it are not attempted and
    their files stay as they were, the report holds that one exception, and
    the exit status is 1; the exit status is 0 exactly when no write of the
    registry fails. *)
Theorem main_stops_at_first_failure (E : env) (d : disk)
    (pre post : list str) (f : str) (e : exn) :
  formats = pre ++ f :: post ->
  first_failure E template pre = None ->
  fails E template f = Some e ->
  report (main E d) = [e] /\
  exit_status (main E d) = 1%Z /\
  (forall g, g ∈ pre ->
     exists bytes, encode_text (render template g) = Some bytes /\
       files (fst (main E d)) !! file_path_of g = Some bytes) /\
  (forall g, g ∈ post ->
     files (fst (main E d)) !! file_path_of g = d !! file_path_of g) /\
  (forall E' d', exit_status (main E' d') = 0%Z <->
     forall g, g ∈ formats -> fails E' template g = None).
Proof.
  intros Hsplit Hpre Hf.
  destruct (run_until_failure E d pre f post e Hsplit Hpre Hf) as (Ho & Hb & Ha).
  unfold report, exit_status. rewrite Ho.
  repeat split; try assumption.
  - rewrite main_outcome. intros H0. apply first_failure_none.
    destruct (first_failure E' template formats); [discriminate | reflexivity].
  - rewrite main_outcome. intros Hall.
    apply first_failure_none in Hall. rewrite Hall. reflexivity.
Qed.

Lemma main_stops_at_first_failure_witness :
  files (fst (main (deny (file_path_of (lit "gfm"))) ∅))
    !! file_path_of (lit "markdown") = None.
Proof.
  refine (eq_trans
    (proj1 (proj2 (proj2 (proj2
      (main_stops_at_first_failure (deny (file_path_of (lit "gfm"))) ∅
         [lit "commonmark"; lit "commonmark_x"]
         [lit "markdown"; lit "markdown_mmd"; lit "markdown_phpextra";
          lit "markdown_strict"; lit "latex"; lit "org"; lit "rst";
          lit "textile"]
         (lit "gfm") (OSError (file_path_of (lit "gfm"))) _ _ _))))
      (lit "markdown") _) _).
  - reflexivity.
  - vm_compute. reflexivity.
  - vm_compute. reflexivity.
  - compute_done.
  - apply lookup_empty.
Defined.

(** C2, as the specification has it, fails: when opening the first file is
    refused, the file of [gfm] is not written although its own write would
    succeed. *)
Lemma isolation_fails :
  ~ isolates_failures (deny (file_path_of (lit "commonmark"))) ∅.
Proof.
  intros Hiso.
  specialize (Hiso (lit "gfm")).
  assert (Hin : lit "gfm" ∈ formats) by compute_done.
  assert (Hok : fails (deny (file_path_of (lit "commonmark"))) template
                  (lit "gfm") = None) by (vm_compute; reflexivity).
  specialize (Hiso Hin Hok).
  destruct (run_until_failure (deny (file_path_of (lit "commonmark"))) ∅
              [] (lit "commonmark") (tail formats)
              (OSError (file_path_of (lit "commonmark"))))
    as (_ & _ & Hafter).
  - reflexivity.
  - reflexivity.
  - vm_compute. reflexivity.
  - rewrite (Hafter (lit "gfm")) in Hiso by compute_done.
    rewrite lookup_empty in Hiso.
    destruct (proj1 (Forall_forall _ _) formats_rendered _ Hin) as (_ & He & _).
    rewrite He in Hiso. discriminate.
Qed.

(** ** The steps of one write *)

Lemma wstep_invariant E p data d s s' :
  write_invariant E p data d s -> wstep E p data s s' ->
  write_invariant E p data d s'.
Proof.
  intros Hinv Hstep. destruct Hstep; unfold write_invariant in *; simpl in *.
  - subst. unfold write_text, attempt. rewrite H. reflexivity.
  - subst. exists [], bytes. repeat split; auto.
    unfold room_for. destruct (E p) as [[|room]|]; auto. simpl. lia.
  - subst. unfold write_text, attempt.
    destruct (E p) as [[|room]|]; [congruence|..]; rewrite H0; reflexivity.
  - destruct Hinv as (cur0 & bytes & Henc & Hb & Hd & Hopen & _). subst d0.
    rewrite lookup_insert_eq in H0. inversion H0; subst cur0.
    exists (cur ++ chunk), bytes. rewrite insert_insert_eq, <- app_assoc.
    repeat split; auto. rewrite length_app. exact H1.
  - destruct Hinv as (cur0 & bytes & Henc & Hb & Hd & Hopen & _). subst d0.
    rewrite lookup_insert_eq in H0. inversion H0; subst cur0.
    unfold write_text, attempt. rewrite H1, Henc, Hb.
    assert (Hlen : (length (cur ++ pending) <=? length cur) = false).
    { apply Nat.leb_gt. rewrite length_app.
      destruct pending; [congruence | simpl; lia]. }
    rewrite Hlen, take_app_length. reflexivity.
  - destruct Hinv as (cur & bytes & Henc & Hb & Hd & Hopen & Hroom).
    rewrite app_nil_r in Hb. subst cur. rewrite Hd.
    unfold write_text, attempt. unfold room_for in Hroom.
    destruct (E p) as [[|room]|]; [congruence|..]; rewrite Henc.
    + apply Nat.leb_le in Hroom. rewrite Hroom. reflexivity.
    + reflexivity.
Qed.

Lemma observable_invariant E p data d s :
  observable E p data d s -> write_invariant E p data d s.
Proof.
  unfold observable. intros Hobs.
  revert s Hobs.
  apply (rtc_ind_r (R := wstep E p data) (write_invariant E p data d)).
  - reflexivity.
  - intros y z _ Hstep IH. exact (wstep_invariant _ _ _ _ _ _ IH Hstep).
Qed.

(** The call does run to its end: the result of [write_text] is reached
    by steps. *)
Lemma write_text_reached E p data d :
  observable E p data d
    (fst (write_text E p data d), final_phase (snd (write_text E p data d))).
Proof.
  unfold observable, write_text, attempt.
  destruct (E p) as [[|room]|] eqn:HE.
  - simpl. apply rtc_once. constructor. exact HE.
  - destruct (encode_text data) as [bytes|] eqn:Henc.
    + destruct (length bytes <=? room) eqn:Hlen; simpl.
      * apply Nat.leb_le in Hlen.
        eapply rtc_l; [apply (step_open E p data d bytes); congruence|].
        destruct bytes as [|b bytes].
        { apply rtc_once. constructor. }
        eapply rtc_l.
        { rewrite <- (app_nil_r (b :: bytes)) at 1.
          apply (step_write E p data _ [] (b :: bytes) []);
            [discriminate | apply lookup_insert_eq |].
          unfold room_for. rewrite HE. simpl in *. lia. }
        rewrite insert_insert_eq. simpl. apply rtc_once. constructor.
      * apply Nat.leb_gt in Hlen.
        eapply rtc_l; [apply (step_open E p data d bytes); congruence|].
        rewrite <- (take_drop room bytes) at 1.
        assert (Hdrop : drop room bytes <> []).
        { intros Hnil. apply (f_equal length) in Hnil.
          rewrite length_drop in Hnil. simpl in Hnil. lia. }
        assert (Htake : length (take room bytes) = room)
          by (rewrite length_take; lia).
        destruct (take room bytes) as [|b tk] eqn:Htk.
        { simpl. apply rtc_once.
          apply (step_disk_full E p data _ [] _ Hdrop);
            [apply lookup_insert_eq|].
          rewrite HE. simpl in Htake. subst room. reflexivity. }
        eapply rtc_l.
        { apply (step_write E p data _ [] (b :: tk) (drop room bytes));
            [discriminate | apply lookup_insert_eq |].
          unfold room_for. rewrite HE. simpl in *. lia. }
        rewrite insert_insert_eq. simpl. apply rtc_once.
        apply (step_disk_full E p data _ (b :: tk) _ Hdrop);
          [apply lookup_insert_eq|].
        rewrite HE, Htake. reflexivity.
    + simpl. apply rtc_once. apply step_open_encode_fails; congruence.
  - destruct (encode_text data) as [bytes|] eqn:Henc; simpl.
    + eapply rtc_l; [apply (step_open E p data d bytes); congruence|].
      destruct bytes as [|b bytes].
      { apply rtc_once. constructor. }
      eapply rtc_l.
      { rewrite <- (app_nil_r (b :: bytes)) at 1.
        apply (step_write E p data _ [] (b :: bytes) []);
          [discriminate | apply lookup_insert_eq |].
        unfold room_for. rewrite HE. exact I. }
      rewrite insert_insert_eq. simpl. apply rtc_once. constructor.
    + apply rtc_once. apply step_open_encode_fails; congruence.
Qed.

Lemma write_text_content E p data d :
  fst (write_text E p data d) !! p = d !! p \/
  exists cur, fst (write_text E p data d) !! p = Some cur /\
              cur `prefix_of` default [] (encode_text data).
Proof.
  unfold write_text, attempt.
  destruct (E p) as [[|room]|]; [left; reflexivity|..];
    destruct (encode_text data) as [bytes|]; simpl; right.
  - destruct (length bytes <=? room); simpl.
    + exists bytes. split; [apply lookup_insert_eq | reflexivity].
    + exists (take room bytes). split; [apply lookup_insert_eq|].
      apply prefix_take.
  - exists []. split; [apply lookup_insert_eq | reflexivity].
  - exists bytes. split; [apply lookup_insert_eq | reflexivity].
  - exists []. split; [apply lookup_insert_eq | reflexivity].
Qed.

(** C3, as the code has it: [write_text] writes the file in place.
    While it runs, no other file changes, and a reader of the file finds
    either what was there before the call or a prefix of the encoded text,
    the empty file included; when the call has closed the file, the file
    holds the whole encoded text; and the call does reach its end.  There is
    no temporary file and no renaming. *)
Theorem write_text_in_place (E : env) (p data : str) (d d' : disk) (ph : phase) :
  observable E p data d (d', ph) ->
  (forall q, q <> p -> d' !! q = d !! q) /\
  (d' !! p = d !! p \/
   exists cur, d' !! p = Some cur /\
               cur `prefix_of` default [] (encode_text data)) /\
  (ph = Closed ->
   exists bytes, encode_text data = Some bytes /\ d' !! p = Some bytes) /\
  observable E p data d
    (fst (write_text E p data d), final_phase (snd (write_text E p data d))).
Proof.
  intros Hobs. apply observable_invariant in Hobs.
  unfold write_invariant in Hobs. simpl in Hobs.
  split; [|split; [|split; [|apply write_text_reached]]].
  - intros q Hq. destruct ph as [|pending| |e].
    + subst. reflexivity.
    + destruct Hobs as (cur & bytes & _ & _ & -> & _).
      apply lookup_insert_ne. congruence.
    + apply (f_equal fst) in Hobs. simpl in Hobs. rewrite <- Hobs.
      apply write_text_frame, Hq.
    + apply (f_equal fst) in Hobs. simpl in Hobs. rewrite <- Hobs.
      apply write_text_frame, Hq.
  - destruct ph as [|pending| |e].
    + subst. left. reflexivity.
    + destruct Hobs as (cur & bytes & Henc & -> & -> & _).
      right. exists cur. split; [apply lookup_insert_eq|].
      rewrite Henc. simpl. apply prefix_app_r. reflexivity.
    + apply (f_equal fst) in Hobs. simpl in Hobs. rewrite <- Hobs.
      apply write_text_content.
    + apply (f_equal fst) in Hobs. simpl in Hobs. rewrite <- Hobs.
      apply write_text_content.
  - intros ->.
    assert (Hok : snd (write_text E p data d) = None) by (rewrite Hobs; reflexivity).
    destruct (write_text_ok _ _ _ _ Hok) as (bytes & Henc & Hw).
    exists bytes. split; [exact Henc|].
    rewrite Hw in Hobs. inversion Hobs. apply lookup_insert_eq.
Qed.

Lemma write_text_in_place_witness :
  (<[lit "../readers/gfm.lua" := []]> (∅ : disk)) !! lit "../readers/org.lua" =
  (∅ : disk) !! lit "../readers/org.lua".
Proof.
  refine (proj1 (write_text_in_place healthy (lit "../readers/gfm.lua")
                   (lit "x") ∅ (<[lit "../readers/gfm.lua" := []]> ∅)
                   (Opened [120%N]) _) (lit "../readers/org.lua") _).
  - apply rtc_once. apply step_open; [discriminate | reflexivity].
  - discriminate.
Defined.

(** C3, as the specification has it, fails: between [open] and the first
    [write], the new file of [gfm] is there and empty. *)
Lemma write_not_atomic :
  ~ never_partial healthy (file_path_of (lit "gfm"))
      (render template (lit "gfm")) ∅.
Proof.
  intros Hnp.
  assert (Hin : lit "gfm" ∈ formats) by compute_done.
  destruct (proj1 (Forall_forall _ _) formats_rendered _ Hin) as (_ & He & _).
  destruct (Hnp (<[file_path_of (lit "gfm") := []]> ∅)
                (Opened (template_head ++ lit "gfm" ++ template_tail)))
    as [Hold | (bytes & Hb & Hnew)].
  - apply rtc_once. apply step_open; [discriminate | exact He].
  - rewrite lookup_insert_eq, lookup_empty in Hold. discriminate.
  - rewrite lookup_insert_eq in Hnew. inversion Hnew; subst bytes.
    rewrite He in Hb. inversion Hb.
Qed.

(** ** A template without placeholder *)

(** C4, as the code has it: with a template in which the placeholder does
    not occur, and which can be encoded, the run in a healthy environment
    ends without exception and with exit status 0, every rendering is the
    template itself and every file holds the encoded template; the report
    is empty, nothing is flagged. *)
Theorem missing_placeholder_not_flagged (tpl : str) (bytes : list byte) (d : disk) :
  occurrences placeholder tpl = 0 ->
  encode_text tpl = Some bytes ->
  snd (generate formats tpl healthy d) = None /\
  exit_status (generate formats tpl healthy d) = 0%Z /\
  report (generate formats tpl healthy d) = [] /\
  forall f, f ∈ formats ->
    render tpl f = tpl /\
    files (fst (generate formats tpl healthy d)) !! file_path_of f = Some bytes.
Proof.
  intros Hocc Henc.
  assert (Hr : forall f, render tpl f = tpl).
  { intros f. apply replace_absent; [apply placeholder_nonempty|].
    rewrite count_placeholder. exact Hocc. }
  assert (Hok : snd (generate formats tpl healthy d) = None).
  { unfold generate. rewrite for_each_outcome. apply first_failure_none.
    intros f _. cbn [initial g_template]. unfold fails, attempt, healthy.
    rewrite Hr, Henc. reflexivity. }
  unfold exit_status, report. rewrite Hok.
  split; [reflexivity|]. split; [reflexivity|]. split; [reflexivity|].
  intros f Hf. split; [apply Hr|].
  destruct (for_each_written healthy formats (initial tpl d)
              formats_paths_NoDup Hok f Hf) as (bytes' & Hb & Hfile).
  cbn [initial g_template] in Hb. rewrite Hr, Henc in Hb.
  inversion Hb; subst bytes'. exact Hfile.
Qed.

Lemma missing_placeholder_not_flagged_witness :
  report (generate formats (lit "local format = 'markdown'") healthy ∅) = [].
Proof.
  refine (proj1 (proj2 (proj2
    (missing_placeholder_not_flagged (lit "local format = 'markdown'")
       (lit "local format = 'markdown'") ∅ _ _)))).
  - reflexivity.
  - reflexivity.
Defined.

(** C4, as the specification has it, fails: the run over a template without
    placeholder reports nothing. *)
Lemma missing_placeholder_silent :
  ~ flags_missing_placeholder (lit "local format = 'markdown'") healthy ∅.
Proof.
  intros Hflag. apply Hflag; [reflexivity|].
  unfold report, generate. rewrite for_each_outcome.
  vm_compute. reflexivity.
Qed.

(** * Further properties of the script *)

(** ** The substitution *)

Section ReplaceFacts.
Context {A : Type} `{EqDecision A}.
Implicit Types old new s u v : list A.

(** The first occurrence the scan meets, and what [replace] makes of it,
    whatever is substituted. *)
Lemma replace_first_hit old s :
  old <> [] -> 0 < count old s ->
  exists pre rest,
    s = pre ++ old ++ rest /\
    forall new, replace old new s = pre ++ new ++ replace old new rest.
Proof.
  intros Hne.
  induction s as [|s IH|c s Hs IH] using (scan_ind old Hne); intros Hc.
  - rewrite count_nil in Hc by exact Hne. lia.
  - exists [], s. split; [reflexivity|]. intros new.
    rewrite replace_hit by exact Hne. reflexivity.
  - rewrite count_miss in Hc by assumption.
    destruct (IH Hc) as (pre & rest & -> & Hr).
    exists (c :: pre), rest. split; [reflexivity|]. intros new.
    change (c :: pre ++ old ++ rest) with (c :: (pre ++ old ++ rest)).
    rewrite replace_miss, Hr by assumption. reflexivity.
Qed.

Lemma replace_inj old new new' s :
  old <> [] -> 0 < count old s ->
  replace old new s = replace old new' s -> new = new'.
Proof.
  intros Hne Hc Heq.
  pose proof (replace_length old new s Hne) as Hl.
  pose proof (replace_length old new' s Hne) as Hl'.
  rewrite Heq in Hl. rewrite Hl in Hl'.
  assert (Hlen : length new = length new') by nia.
  destruct (replace_first_hit old s Hne Hc) as (pre & rest & _ & Hr).
  rewrite (Hr new), (Hr new') in Heq.
  apply app_inv_head in Heq.
  apply (app_inj_1 _ _ _ _ Hlen) in Heq. apply Heq.
Qed.

Lemma replace_self old s : old <> [] -> replace old old s = s.
Proof.
  intros Hne. induction s as [|s IH|c s Hs IH] using (scan_ind old Hne).
  - apply replace_nil, Hne.
  - rewrite replace_hit, IH by exact Hne. reflexivity.
  - rewrite replace_miss, IH by assumption. reflexivity.
Qed.

(** A character that is not in [old] cannot be inside an occurrence. *)
Lemma starts_with_sep old u c v :
  c ∉ old -> starts_with old (u ++ c :: v) = starts_with old u.
Proof.
  revert u. induction old as [|a o IH]; intros u Hc; [reflexivity|].
  apply not_elem_of_cons in Hc as [Hca Hc].
  destruct u as [|b u]; simpl.
  - rewrite decide_False by congruence. reflexivity.
  - destruct (decide (a = b)); [apply IH, Hc | reflexivity].
Qed.

Lemma occurrences_sep old u c v :
  old <> [] -> c ∉ old ->
  occurrences old (u ++ c :: v) = occurrences old u + occurrences old v.
Proof.
  intros Hne Hc. induction u as [|b u IH].
  - cbn [app occurrences].
    pose proof (starts_with_sep old [] c v Hc) as H0. cbn [app] in H0.
    rewrite H0. destruct old; [congruence | reflexivity].
  - change ((b :: u) ++ c :: v) with (b :: (u ++ c :: v)). cbn [occurrences].
    change (b :: u ++ c :: v) with ((b :: u) ++ c :: v).
    rewrite (starts_with_sep old (b :: u) c v Hc), IH. lia.
Qed.

End ReplaceFacts.

(** X1: when the template contains the placeholder, different identifiers
    give different renderings. *)
Theorem render_injective (tpl f g : str) :
  0 < occurrences placeholder tpl ->
  render tpl f = render tpl g -> f = g.
Proof.
  intros Hocc. rewrite <- count_placeholder in Hocc.
  apply (replace_inj placeholder f g tpl placeholder_nonempty Hocc).
Qed.

Lemma render_injective_witness : lit "org" = lit "org".
Proof.
  refine (render_injective template (lit "org") (lit "org") _ _).
  - vm_compute. lia.
  - reflexivity.
Defined.

(** X2: the rendering is the template itself exactly when the template has
    no placeholder or the identifier is the placeholder. *)
Theorem render_unchanged_iff (tpl f : str) :
  render tpl f = tpl <-> occurrences placeholder tpl = 0 \/ f = placeholder.
Proof.
  split.
  - intros Heq. destruct (occurrences placeholder tpl) as [|n] eqn:Hocc;
      [left; reflexivity | right].
    apply (replace_inj placeholder f placeholder tpl placeholder_nonempty).
    + rewrite count_placeholder, Hocc. lia.
    + fold (render tpl f). rewrite Heq. symmetry.
      apply replace_self, placeholder_nonempty.
  - intros [Hocc | ->].
    + apply replace_absent; [apply placeholder_nonempty|].
      rewrite count_placeholder. exact Hocc.
    + apply replace_self, placeholder_nonempty.
Qed.

Lemma render_unchanged_iff_witness :
  render (lit "no marker") (lit "gfm") = lit "no marker".
Proof.
  refine (proj2 (render_unchanged_iff (lit "no marker") (lit "gfm")) _).
  left. reflexivity.
Defined.

Lemma render_template (f : str) :
  render template f = template_head ++ f ++ template_tail.
Proof. vm_compute. reflexivity. Qed.

(** X3: in the template of the script the placeholder stands between two
    apostrophes, so a generated file contains [<format>] exactly as often as
    its identifier does. *)
Theorem render_template_occurrences (f : str) :
  occurrences placeholder (render template f) = occurrences placeholder f.
Proof.
  rewrite render_template.
  change (template_head ++ f ++ template_tail)
    with (take 178 template ++ 39%N :: (f ++ 39%N :: drop 188 template)).
  rewrite (occurrences_sep placeholder (take 178 template) 39%N)
    by (discriminate || compute_done).
  rewrite (occurrences_sep placeholder f 39%N)
    by (discriminate || compute_done).
  change (occurrences placeholder (take 178 template)) with 0.
  change (occurrences placeholder (drop 188 template)) with 0.
  lia.
Qed.

(** ** The encoding of the text *)

Lemma translate_newlines_id (s : str) : translate_newlines s = s.
Proof.
  induction s as [|c s IH]; [reflexivity|].
  unfold translate_newlines in *. cbn [flat_map]. rewrite IH.
  destruct (N.eqb_spec c 10%N) as [->|_]; reflexivity.
Qed.


Lemma lor_lt_256 (a b : N) : (a < 256 -> b < 256 -> N.lor a b < 256)%N.
Proof.
  intros Ha Hb. destruct (N.eq_dec (N.lor a b) 0%N) as [Hz|Hz]; [lia|].
  change 256%N with (2 ^ 8)%N. apply N.log2_lt_pow2; [lia|].
  rewrite N.log2_lor. apply N.max_lub_lt.
  - destruct (N.eq_dec a 0%N) as [->|]; [simpl; lia|].
    apply N.log2_lt_pow2; [lia | exact Ha].
  - destruct (N.eq_dec b 0%N) as [->|]; [simpl; lia|].
    apply N.log2_lt_pow2; [lia | exact Hb].
Qed.

Lemma shiftr_lt (c k m : N) : (c < m * 2 ^ k -> N.shiftr c k < m)%N.
Proof.
  intros Hc. rewrite N.shiftr_div_pow2.
  apply N.Div0.div_lt_upper_bound. lia.
Qed.

Lemma continuation_lt_256 (x : N) : (N.lor 0x80 (N.land x 0x3F) < 256)%N.
Proof.
  apply lor_lt_256; [lia|]. pose proof (N.land_le_r x 0x3F%N). lia.
Qed.

Lemma utf8_char_bounds (c : codepoint) (bs : list byte) :
  utf8_char c = Some bs ->
  Forall (fun x => (x < 256)%N) bs /\ 1 <= length bs <= 4.
Proof.
  unfold utf8_char.
  destruct (N.ltb_spec c 0x80%N).
  { intros [= <-]. split; [repeat constructor; lia | simpl; lia]. }
  destruct (N.ltb_spec c 0x800%N).
  { intros [= <-]. split; [|simpl; lia].
    repeat constructor; [|apply continuation_lt_256].
    apply lor_lt_256; [lia|]. apply (N.lt_trans _ 32%N); [|lia].
    apply shiftr_lt. simpl. lia. }
  destruct (N.ltb_spec c 0x10000%N).
  { destruct ((0xD800 <=? c)%N && (c <=? 0xDFFF)%N); [discriminate|].
    intros [= <-]. split; [|simpl; lia].
    repeat constructor; try apply continuation_lt_256.
    apply lor_lt_256; [lia|]. apply (N.lt_trans _ 16%N); [|lia].
    apply shiftr_lt. simpl. lia. }
  destruct (N.ltb_spec c 0x110000%N); [|discriminate].
  intros [= <-]. split; [|simpl; lia].
  repeat constructor; try apply continuation_lt_256.
  apply lor_lt_256; [lia|]. apply (N.lt_trans _ 5%N); [|lia].
  apply shiftr_lt. simpl. lia.
Qed.


(** The encoding of a text is made of bytes, at least one and at most four
    for each character. *)
Lemma utf8_encode_bounds (s : str) (bytes : list byte) :
  utf8_encode s = Some bytes ->
  Forall (fun x => (x < 256)%N) bytes /\
  length s <= length bytes <= 4 * length s.
Proof.
  revert bytes. induction s as [|c s IH]; intros bytes.
  - intros [= <-]. split; [constructor | simpl; lia].
  - cbn [utf8_encode].
    destruct (utf8_char c) as [bs|] eqn:Hc; [|discriminate].
    destruct (utf8_encode s) as [rest|]; [|discriminate].
    intros [= <-]. destruct (utf8_char_bounds c bs Hc) as [Hb Hl].
    destruct (IH rest eq_refl) as [Hr Hlr].
    split; [apply Forall_app; split; assumption|].
    rewrite length_app. simpl. lia.
Qed.



(** X6: after a write that returns, the file is made of bytes, at least one
    and at most four for each character of the text. *)
Theorem write_text_size (E : env) (p data : str) (d : disk) :
  snd (write_text E p data d) = None ->
  exists bytes,
    fst (write_text E p data d) !! p = Some bytes /\
    Forall (fun x => (x < 256)%N) bytes /\
    length data <= length bytes <= 4 * length data.
Proof.
  intros Hok. destruct (write_text_ok _ _ _ _ Hok) as (bytes & Henc & Hw).
  exists bytes. rewrite Hw. split; [apply lookup_insert_eq|].
  unfold encode_text in Henc. rewrite translate_newlines_id in Henc.
  exact (utf8_encode_bounds data bytes Henc).
Qed.

Lemma write_text_size_witness :
  exists bytes,
    fst (write_text healthy (lit "../readers/x.lua") [0x20AC%N; 0x21%N] ∅)
      !! lit "../readers/x.lua" = Some bytes /\
    Forall (fun x => (x < 256)%N) bytes /\
    length [0x20AC%N; 0x21%N] <= length bytes <= 4 * length [0x20AC%N; 0x21%N].
Proof.
  refine (write_text_size healthy (lit "../readers/x.lua")
            [0x20AC%N; 0x21%N] ∅ _).
  reflexivity.
Defined.

Lemma utf8_encode_ascii (s : str) : is_ascii s -> utf8_encode s = Some s.
Proof.
  induction 1 as [|c s Hc _ IH]; [reflexivity|].
  cbn [utf8_encode]. rewrite IH. unfold utf8_char.
  apply N.ltb_lt in Hc. rewrite Hc. reflexivity.
Qed.

Lemma replace_Forall {A} `{EqDecision A} (P : A -> Prop) (old new s : list A) :
  old <> [] -> Forall P new -> Forall P s -> Forall P (replace old new s).
Proof.
  intros Hne Hnew.
  induction s as [|s IH|c s Hs IH] using (scan_ind old Hne); intros Hall.
  - rewrite replace_nil by exact Hne. constructor.
  - rewrite replace_hit by exact Hne. apply Forall_app in Hall as [_ Hs].
    apply Forall_app. split; [exact Hnew | apply IH, Hs].
  - rewrite replace_miss by assumption. inversion Hall; subst.
    constructor; [assumption | apply IH; assumption].
Qed.

(** X4: for an ASCII template and an ASCII identifier the bytes written are
    the characters of the rendering, one byte for each, line breaks
    included. *)
Theorem encode_text_ascii (tpl f : str) :
  is_ascii tpl -> is_ascii f ->
  encode_text (render tpl f) = Some (render tpl f : list byte).
Proof.
  intros Ht Hf. unfold encode_text. rewrite translate_newlines_id.
  apply utf8_encode_ascii.
  apply replace_Forall; [apply placeholder_nonempty | exact Hf | exact Ht].
Qed.

Lemma encode_text_ascii_witness :
  encode_text (render (lit "format = <format>") (lit "rst")) =
  Some (render (lit "format = <format>") (lit "rst") : list byte).
Proof.
  refine (encode_text_ascii (lit "format = <format>") (lit "rst") _ _).
  - repeat constructor.
  - repeat constructor.
Defined.

(** ** The paths *)

Lemma split_slash_last cur (u v : str) :
  slash ∉ v ->
  exists init lst, split_from [slash] cur 0 (u ++ v) = init ++ [lst ++ v].
Proof.
  intros Hv. revert cur. induction u as [|c u IH]; intros cur.
  - exists [], (rev cur). cbn [app]. apply split_slash_piece, Hv.
  - change ((c :: u) ++ v) with (c :: (u ++ v)).
    cbn [split_from starts_with]. destruct (decide (slash = c)) as [_|_].
    + destruct (IH []) as (init & lst & Hsp).
      exists (rev cur :: init), lst. cbn [length Nat.sub]. rewrite Hsp.
      reflexivity.
    + apply IH.
Qed.

Lemma join_snoc {A} (sep : list A) (pieces : list (list A)) (x : list A) :
  exists m, join sep (pieces ++ [x]) = m ++ x.
Proof.
  induction pieces as [|p ps [m IH]].
  - exists []. reflexivity.
  - exists (p ++ sep ++ m). cbn [app join].
    destruct (ps ++ [x]) as [|y l] eqn:E; [destruct ps; discriminate|].
    rewrite IH, <- !app_assoc. reflexivity.
Qed.

Lemma join_cons_cons {A} (sep p q : list A) (l : list (list A)) :
  join sep (p :: q :: l) = p ++ sep ++ join sep (q :: l).
Proof. reflexivity. Qed.

(** X10: whatever the identifier, the path of its file begins with
    [../readers/] and ends with [.lua]. *)
Theorem file_path_under_readers (f : str) :
  exists mid, file_path_of f = lit "../readers/" ++ mid ++ lit ".lua".
Proof.
  unfold file_path_of, mkPath.
  change (lit "../readers/" ++ f ++ lit ".lua")
    with (lit ".." ++ slash :: (lit "readers" ++ slash :: (f ++ lit ".lua"))).
  change (splitroot (lit ".." ++ slash :: (lit "readers" ++ slash :: (f ++ lit ".lua"))))
    with (@nil codepoint,
          lit ".." ++ slash :: (lit "readers" ++ slash :: (f ++ lit ".lua"))).
  cbv iota beta. unfold split.
  rewrite (split_slash_sep [] (lit "..")) by compute_done.
  rewrite (split_slash_sep [] (lit "readers")) by compute_done.
  destruct (split_slash_last [] f (lit ".lua")) as (init & lst & Hsp);
    [compute_done|].
  rewrite Hsp. cbn [rev app].
  rewrite !filter_cons_True by (split; discriminate).
  rewrite filter_app, filter_cons_True, filter_nil.
  2:{ split; intros Heq; apply (f_equal length) in Heq;
        rewrite length_app in Heq; simpl in Heq; lia. }
  destruct (join_snoc [slash]
              (filter (fun x : str => x <> [] /\ x <> [dot]) init)
              (lst ++ lit ".lua")) as [m Hm].
  unfold path_str. cbn [root parts].
  destruct (filter _ init ++ [lst ++ lit ".lua"]) as [|y l] eqn:E;
    [destruct (filter _ init); discriminate|].
  rewrite !join_cons_cons, Hm. exists (m ++ lst).
  rewrite <- !app_assoc. reflexivity.
Qed.

Example path_escapes :
  file_path_of (lit "../lib/readerlib") = lit "../readers/../lib/readerlib.lua".
Proof. reflexivity. Qed.

(** ** The loop over any registry *)









Example same_path : file_path_of (lit "./gfm") = file_path_of (lit "gfm").
Proof. reflexivity. Qed.

Lemma iteration_globals E f st :
  g_format (fst (iteration E f st)) = Some f /\
  g_file_path (fst (iteration E f st)) = Some (file_path_of f).
Proof.
  unfold iteration. destruct (write_text _ _ _ _) as [d r]. split; reflexivity.
Qed.

(** X12: after the loop over a registry that is not empty, the globals
    [format] and [file_path] are those of the identifier at which the loop
    ended: no write before it failed, the outcome of the loop is the outcome
    of its write, and when that is no exception it is the last identifier. *)
Theorem for_each_exit (E : env) (fmts : list str) (st : state) :
  fmts <> [] ->
  exists pre f post,
    fmts = pre ++ f :: post /\
    g_format (fst (for_each E fmts st)) = Some f /\
    g_file_path (fst (for_each E fmts st)) = Some (file_path_of f) /\
    first_failure E (g_template st) pre = None /\
    snd (for_each E fmts st) = fails E (g_template st) f /\
    (snd (for_each E fmts st) = None -> post = []).
Proof.
  revert st. induction fmts as [|g rest IH]; intros st Hne; [congruence|].
  cbn [for_each].
  pose proof (iteration_globals E g st) as [Hgf Hgp].
  pose proof (iteration_outcome E g st) as Ho.
  pose proof (iteration_template E g st) as Ht.
  destruct (iteration E g st) as [st1 [e|]]; simpl in *.
  - exists [], g, rest. repeat split; auto. discriminate.
  - destruct rest as [|g' rest'].
    + exists [], g, []. repeat split; auto.
    + destruct (IH st1) as (pre & f & post & Hsp & H1 & H2 & H3 & H4 & H5);
        [discriminate|].
      exists (g :: pre), f, post. rewrite Ht in *.
      repeat split; auto.
      * rewrite Hsp. reflexivity.
      * cbn [first_failure]. rewrite <- Ho. exact H3.
Qed.

Lemma for_each_exit_witness :
  exists pre f post,
    [lit "org"; lit "rst"] = pre ++ f :: post /\
    g_format (fst (for_each healthy [lit "org"; lit "rst"] (initial template ∅)))
      = Some f /\
    g_file_path (fst (for_each healthy [lit "org"; lit "rst"] (initial template ∅)))
      = Some (file_path_of f) /\
    first_failure healthy (g_template (initial template ∅)) pre = None /\
    snd (for_each healthy [lit "org"; lit "rst"] (initial template ∅)) =
      fails healthy (g_template (initial template ∅)) f /\
    (snd (for_each healthy [lit "org"; lit "rst"] (initial template ∅)) = None ->
     post = []).
Proof.
  refine (for_each_exit healthy [lit "org"; lit "rst"] (initial template ∅) _).
  discriminate.
Defined.

(** ** The steps of one write, to the end *)

(** X11: however the bytes are cut into chunks, the steps of a write can
    always go on until the call has returned or raised, and then the file
    system and the exception are those of [write_text]; from there no step
    is left. *)
Theorem write_text_steps_agree (E : env) (p data : str) (d d' : disk)
    (ph : phase) :
  observable E p data d (d', ph) ->
  (terminal ph ->
   write_text E p data d = (d', raised ph) /\
   forall s', ~ wstep E p data (d', ph) s') /\
  (~ terminal ph -> exists s', wstep E p data (d', ph) s').
Proof.
  intros Hobs. apply observable_invariant in Hobs.
  unfold write_invariant in Hobs. simpl in Hobs. split.
  - intros Hterm. destruct ph as [|pending| |e]; simpl in Hterm; try tauto.
    + split; [exact Hobs|]. intros s' Hstep. inversion Hstep.
    + split; [exact Hobs|]. intros s' Hstep. inversion Hstep.
  - intros Hnt. destruct ph as [|pending| |e]; simpl in Hnt; try tauto.
    + destruct (E p) as [[|room]|] eqn:HE.
      * eexists. apply step_open_fails. exact HE.
      * destruct (encode_text data) as [bytes|] eqn:Henc; eexists;
          [eapply step_open | apply step_open_encode_fails];
          eauto; congruence.
      * destruct (encode_text data) as [bytes|] eqn:Henc; eexists;
          [eapply step_open | apply step_open_encode_fails];
          eauto; congruence.
    + destruct Hobs as (cur & bytes & _ & _ & -> & Hopen & Hroom).
      destruct pending as [|b rest]; [eexists; apply step_close|].
      unfold room_for in Hroom.
      destruct (E p) as [[|room]|] eqn:HE; [congruence|..].
      * destruct (decide (length cur = room)) as [<-|Hlt].
        { eexists. apply (step_disk_full E p data _ cur);
            [discriminate | apply lookup_insert_eq | exact HE]. }
        eexists. apply (step_write E p data _ cur [b] rest);
          [discriminate | apply lookup_insert_eq|].
        unfold room_for. rewrite HE. simpl. lia.
      * eexists. apply (step_write E p data _ cur [b] rest);
          [discriminate | apply lookup_insert_eq|].
        unfold room_for. rewrite HE. exact I.
Qed.

Lemma write_text_steps_agree_witness :
  exists s',
    wstep healthy (lit "../readers/gfm.lua") (lit "x")
      (<[lit "../readers/gfm.lua" := []]> ∅, Opened [120%N]) s'.
Proof.
  refine (proj2 (write_text_steps_agree healthy (lit "../readers/gfm.lua")
                   (lit "x") ∅ (<[lit "../readers/gfm.lua" := []]> ∅)
                   (Opened [120%N]) _) _).
  - apply rtc_once. apply step_open; [discriminate | reflexivity].
  - intros [].
Defined.



